(** * pymodbus/utilities.py: bit packing and checksums

    A shallow embedding of the functions of [trunk/pymodbus/utilities.py]
    ([packBitsToString], [unpackBitsFromString], the CRC16 table and
    [computeCRC]/[checkCRC], [computeLRC]/[checkLRC]) together with the
    properties of the written specification that concern them.

    Python integers are unbounded, so they are modelled by [Z]; a Python 2
    byte string is a [list byte]; a raised exception is the [Raise] branch
    of [result]. *)

From Stdlib Require Import ZArith List Bool Lia ZifyNat.
From Stdlib Require Import Strings.Byte.
From Stdlib Require Import Sorting.Permutation.
Import ListNotations.

Local Open Scope Z_scope.

(** ** Exceptions and the error monad *)

(** The two builtin exceptions the functions of this file can meet:
    [IndexError] from a subscript out of range and [ValueError] from
    [chr] outside [range(256)]. *)
Inductive exn : Set :=
| IndexError
| ValueError.

Inductive result (A : Type) : Type :=
| Ok (a : A)
| Raise (e : exn).

Arguments Ok {A} a.
Arguments Raise {A} e.

Definition bind {A B : Type} (m : result A) (k : A -> result B) : result B :=
  match m with
  | Ok a => k a
  | Raise e => Raise e
  end.

Notation "x <- m ;; k" := (bind m (fun x => k))
  (at level 61, m at next level, right associativity).

(** [for x in xs: body], the body threading a state and possibly raising. *)
Fixpoint for_each {A S : Type} (xs : list A) (body : S -> A -> result S)
  (s : S) : result S :=
  match xs with
  | [] => Ok s
  | x :: xs' => s' <- body s x ;; for_each xs' body s'
  end.

(** ** Python builtins *)

(** [range(lo, hi)]. *)
Definition range (lo hi : Z) : list Z :=
  map (fun k => lo + Z.of_nat k) (seq 0 (Z.to_nat (hi - lo))).

(** [ord(c)] for one character of a byte string. *)
Definition ord (c : byte) : Z := Z.of_N (Byte.to_N c).

(** [chr(n)]: raises [ValueError] unless [n] is in [range(256)]. *)
Definition chr (n : Z) : result byte :=
  if (n <? 0) || (256 <=? n) then Raise ValueError
  else match Byte.of_N (Z.to_N n) with
       | Some c => Ok c
       | None => Raise ValueError
       end.

(** [s[k]] on a sequence: a negative index counts from the end, and an
    index outside the sequence raises [IndexError]. *)
Definition getitem {A : Type} (s : list A) (k : Z) : result A :=
  let n := Z.of_nat (length s) in
  let k' := if k <? 0 then k + n else k in
  if (k' <? 0) || (n <=? k') then Raise IndexError
  else match nth_error s (Z.to_nat k') with
       | Some a => Ok a
       | None => Raise IndexError
       end.

(** ** packBitsToString *)

(** The three locals of the loop: [ret], [i] and [packed]. *)
Record pack_state : Type := mkPack {
  ret : list byte;
  i : Z;
  packed : Z
}.

(** One iteration of [for bit in bits]. *)
Definition pack_body (st : pack_state) (bit : bool) : result pack_state :=
  let packed := if bit then packed st + 128 else packed st in
  let i := i st + 1 in
  if i =? 8 then
    c <- chr packed ;;
    Ok (mkPack (ret st ++ [c]) 0 0)
  else
    Ok (mkPack (ret st) i (Z.shiftr packed 1)).

Definition packBitsToString (bits : list bool) : result (list byte) :=
  st <- for_each bits pack_body (mkPack [] 0 0) ;;
  if (0 <? i st) && (i st <? 8) then
    let packed := Z.shiftr (packed st) (7 - i st) in
    c <- chr packed ;;
    Ok (ret st ++ [c])
  else Ok (ret st).

(** ** unpackBitsFromString *)

(** One iteration of [for bit in range(8)]; the state is [(bits, value)]. *)
Definition unpack_bit (st : list bool * Z) (bit : Z) : result (list bool * Z) :=
  let '(bits, value) := st in
  Ok (bits ++ [Z.land value 1 =? 1], Z.shiftr value 1).

(** One iteration of [for byte in range(1, byte_count+1)]. *)
Definition unpack_body (string : list byte) (bits : list bool) (byte : Z)
  : result (list bool) :=
  c <- getitem string byte ;;
  st <- for_each (range 0 8) unpack_bit (bits, ord c) ;;
  Ok (fst st).

Definition unpackBitsFromString (string : list byte)
  : result (list bool * Z) :=
  c <- getitem string 0 ;;
  let byte_count := ord c in
  bits <- for_each (range 1 (byte_count + 1)) (unpack_body string) [] ;;
  Ok (bits, byte_count).

(** ** CRC16 *)

(** One iteration of [for bit in range(8)] of the table generator; the
    state is [(crc, byte)]. *)
Definition crc16_table_bit (st : Z * Z) (bit : Z) : Z * Z :=
  let '(crc, byte) := st in
  let crc := if negb (Z.land (Z.lxor byte crc) 0x0001 =? 0)
             then Z.lxor (Z.shiftr crc 1) 0xa001
             else Z.shiftr crc 1 in
  (crc, Z.shiftr byte 1).

(** The table entry appended for one [byte] of [range(256)]. *)
Definition crc16_table_entry (byte : Z) : Z :=
  fst (fold_left crc16_table_bit (range 0 8) (0, byte)).

Definition __generate_crc16_table : list Z :=
  fold_left (fun result byte => result ++ [crc16_table_entry byte])
    (range 0 256) [].

Definition __crc16_table : list Z := __generate_crc16_table.

(** One iteration of [for a in data]. *)
Definition crc_body (crc : Z) (a : byte) : result Z :=
  idx <- getitem __crc16_table (Z.land (Z.lxor crc (ord a)) 0xff) ;;
  Ok (Z.lxor (Z.land (Z.shiftr crc 8) 0xff) idx).

Definition computeCRC (data : list byte) : result Z :=
  for_each data crc_body 0xffff.

Definition checkCRC (data : list byte) (check : Z) : result bool :=
  crc <- computeCRC data ;;
  Ok (crc =? check).

(** ** LRC *)

(** [sum(ord(a) for a in data)]. *)
Definition sum_ord (data : list byte) : Z :=
  fold_left (fun acc a => acc + ord a) data 0.

Definition computeLRC (data : list byte) : Z :=
  let lrc := Z.land (sum_ord data) 0xff in
  let lrc := Z.lxor lrc 0xff + 1 in
  lrc.

Definition checkLRC (data : list byte) (check : Z) : bool :=
  computeLRC data =? check.

(** ** Reference CRC-16 of the specification

    The bit-by-bit reflected CRC-16 the specification compares the table
    with: polynomial [0xA001], initial value [0xFFFF], one shift per bit. *)

(** One bit: when the low bit of the running value is set, shift right by
    one and XOR with the polynomial; otherwise just shift right. *)
Definition crc16_shift (crc : Z) : Z :=
  if Z.odd crc then Z.lxor (Z.shiftr crc 1) 0xA001 else Z.shiftr crc 1.

(** One byte: XOR it into the running value, then shift eight times. *)
Definition crc16_naive_byte (crc : Z) (a : byte) : Z :=
  Nat.iter 8 crc16_shift (Z.lxor crc (ord a)).

Definition crc16_naive (data : list byte) : Z :=
  fold_left crc16_naive_byte data 0xFFFF.

(** ** Notions used to state the packing properties *)

(** The value of a group of bits, first bit least significant. *)
Fixpoint bits_to_Z (g : list bool) : Z :=
  match g with
  | [] => 0
  | b :: g' => Z.b2z b + 2 * bits_to_Z g'
  end.

(** The eight low bits of a value, least significant first. *)
Definition byte_bits (v : Z) : list bool :=
  map (fun j => Z.testbit v (Z.of_nat j)) (seq 0 8).

(** The bits decoded from a run of data bytes. *)
Definition decode_bytes (data : list byte) : list bool :=
  flat_map (fun c => byte_bits (ord c)) data.

(** [ceil(n / 8)] on naturals. *)
Definition ceil8 (n : nat) : nat := Nat.div (n + 7) 8.

(** The pending group [g] as the loop holds it in [packed]: its value,
    pushed up so that the next bit enters at weight 128. *)
Definition pending (g : list bool) : Z :=
  bits_to_Z g * 2 ^ (7 - Z.of_nat (length g)).

(** The last, partial group, when there is one. *)
Definition partial_group (g' : list bool) : list (list bool) :=
  match g' with
  | [] => []
  | _ :: _ => [g']
  end.

(** The number of [False] bits that fill the last byte of [n] packed bits. *)
Definition padding (n : nat) : nat := (8 * ceil8 n - n)%nat.

(** A loop state with [r] put in front of its [ret]. *)
Definition with_prefix (r : list byte) (st : pack_state) : pack_state :=
  mkPack (r ++ ret st) (i st) (packed st).

(** ** Checks by evaluation *)

(** Every index of [range(256)] reads the entry generated for it, and that
    entry is the eightfold shift of the index. *)
Definition table_entry_ok (k : Z) : bool :=
  match getitem __crc16_table k with
  | Ok v => (v =? crc16_table_entry k)
            && (v =? Nat.iter 8 crc16_shift k)
            && (0 <=? v) && (v <? 0x10000)
  | Raise _ => false
  end.

(** ** Tactics *)

(** Linear arithmetic with quotients and remainders by constants. *)
Ltac div_lia := zify; Z.to_euclidean_division_equations; lia.

(** ** First evaluations *)

Example pack_doc_example :
  packBitsToString [false; true; false; true] = Ok [x0a].
Proof. reflexivity. Qed.

Example pack_nine :
  packBitsToString [true; false; false; false; false; false; false; true; true]
  = Ok [x81; x01].
Proof. reflexivity. Qed.

Example unpack_two :
  unpackBitsFromString [x01; x05; xff]
  = Ok ([true; false; true; false; false; false; false; false], 1).
Proof. reflexivity. Qed.

Example crc_modbus_frame :
  computeCRC [x01; x03; x00; x00; x00; x0a] = Ok 0xcdc5.
Proof. vm_compute. reflexivity. Qed.

Example crc_naive_modbus_frame :
  crc16_naive [x01; x03; x00; x00; x00; x0a] = 0xcdc5.
Proof. vm_compute. reflexivity. Qed.

Example lrc_modbus_frame :
  computeLRC [x01; x03; x00; x00; x00; x0a] = 0xf2.
Proof. reflexivity. Qed.

(** ** Bit-level facts on [Z] *)

Lemma lxor_lt_pow2 (a b n : Z) :
  0 <= a < 2 ^ n -> 0 <= b < 2 ^ n -> 0 <= Z.lxor a b < 2 ^ n.
Proof.
  intros Ha Hb.
  assert (Hnn : 0 <= Z.lxor a b) by (apply Z.lxor_nonneg; lia).
  split; [exact Hnn|].
  destruct (Z.eq_dec (Z.lxor a b) 0) as [E|E]; [lia|].
  destruct (Z.eq_dec a 0) as [Ea|Ea].
  - subst a. rewrite Z.lxor_0_l. lia.
  - destruct (Z.eq_dec b 0) as [Eb|Eb].
    + subst b. rewrite Z.lxor_0_r. lia.
    + apply Z.log2_lt_pow2; [lia|].
      eapply Z.le_lt_trans; [apply Z.log2_lxor; lia|].
      apply Z.max_lub_lt; apply Z.log2_lt_pow2; lia.
Qed.

Lemma ord_range (c : byte) : 0 <= ord c < 256.
Proof.
  unfold ord. pose proof (Byte.to_N_bounded c). lia.
Qed.

Lemma land_255_range (x : Z) : 0 <= Z.land x 255 < 256.
Proof.
  change 255 with (Z.ones 8). rewrite Z.land_ones by lia.
  apply Z.mod_pos_bound. reflexivity.
Qed.

Lemma land_255_small (x : Z) : 0 <= x < 256 -> Z.land x 255 = x.
Proof.
  intros H. change 255 with (Z.ones 8). rewrite Z.land_ones by lia.
  apply Z.mod_small. exact H.
Qed.

Lemma split_low_high (x : Z) :
  x = Z.lxor (Z.land x 255) (Z.shiftl (Z.shiftr x 8) 8).
Proof.
  apply Z.bits_inj'. intros n Hn.
  rewrite Z.lxor_spec, Z.land_spec, Z.shiftl_spec by exact Hn.
  change 255 with (Z.ones 8).
  rewrite Z.testbit_ones_nonneg by lia.
  destruct (Z.ltb_spec n 8) as [Hlt|Hge].
  - rewrite (Z.testbit_neg_r _ (n - 8)) by lia.
    rewrite andb_true_r, xorb_false_r. reflexivity.
  - rewrite Z.shiftr_spec by lia.
    rewrite andb_false_r, xorb_false_l. f_equal. lia.
Qed.

(** ** The CRC16 table against the bit-by-bit shift *)

(** The shift is linear over XOR. *)
Lemma crc16_shift_lxor (x y : Z) :
  crc16_shift (Z.lxor x y) = Z.lxor (crc16_shift x) (crc16_shift y).
Proof.
  unfold crc16_shift.
  rewrite <- !Z.bit0_odd, Z.lxor_spec, Z.shiftr_lxor.
  set (sx := Z.shiftr x 1). set (sy := Z.shiftr y 1).
  destruct (Z.testbit x 0), (Z.testbit y 0); cbn [xorb].
  - rewrite (Z.lxor_comm sy 0xA001), Z.lxor_assoc.
    rewrite <- (Z.lxor_assoc 0xA001 0xA001 sy).
    rewrite Z.lxor_nilpotent, Z.lxor_0_l. reflexivity.
  - rewrite !Z.lxor_assoc. f_equal. apply Z.lxor_comm.
  - rewrite Z.lxor_assoc. reflexivity.
  - reflexivity.
Qed.

Lemma iter_crc16_shift_lxor (n : nat) (x y : Z) :
  Nat.iter n crc16_shift (Z.lxor x y)
  = Z.lxor (Nat.iter n crc16_shift x) (Nat.iter n crc16_shift y).
Proof.
  induction n as [|n IH]; [reflexivity|].
  rewrite !Nat.iter_succ, IH. apply crc16_shift_lxor.
Qed.

(** A value with a zero low bit is only shifted. *)
Lemma crc16_shift_shiftl (h n : Z) :
  0 <= n -> crc16_shift (Z.shiftl h (Z.succ n)) = Z.shiftl h n.
Proof.
  intros Hn. unfold crc16_shift.
  rewrite <- Z.bit0_odd, Z.shiftl_spec by lia.
  rewrite Z.testbit_neg_r by lia.
  rewrite Z.shiftr_shiftl_l by lia. f_equal. lia.
Qed.

Lemma iter_crc16_shift_shiftl (n : nat) (h : Z) :
  Nat.iter n crc16_shift (Z.shiftl h (Z.of_nat n)) = h.
Proof.
  induction n as [|n IH].
  - cbn. apply Z.shiftl_0_r.
  - rewrite Nat.iter_succ_r, Nat2Z.inj_succ.
    rewrite crc16_shift_shiftl by lia. exact IH.
Qed.

Lemma table_entries_ok : forallb table_entry_ok (range 0 256) = true.
Proof. vm_compute. reflexivity. Qed.

Lemma in_range (lo hi k : Z) : lo <= k < hi -> In k (range lo hi).
Proof.
  intros H. unfold range. apply in_map_iff.
  exists (Z.to_nat (k - lo)). split; [lia|].
  apply in_seq. lia.
Qed.

Lemma crc16_table_lookup (k : Z) :
  0 <= k < 256 ->
  getitem __crc16_table k = Ok (Nat.iter 8 crc16_shift k)
  /\ 0 <= Nat.iter 8 crc16_shift k < 0x10000.
Proof.
  intros Hk.
  pose proof table_entries_ok as H.
  rewrite forallb_forall in H.
  specialize (H k (in_range 0 256 k Hk)).
  unfold table_entry_ok in H.
  destruct (getitem __crc16_table k) as [v|e]; [|discriminate].
  rewrite !andb_true_iff in H.
  destruct H as [[[_ H1] H2] H3].
  apply Z.eqb_eq in H1. subst v. split; [reflexivity|lia].
Qed.

(** One table-driven step equals the eight shifts of the reference, and
    keeps the running value on 16 bits. *)
Lemma crc_body_naive (crc : Z) (a : byte) :
  0 <= crc < 0x10000 ->
  crc_body crc a = Ok (crc16_naive_byte crc a)
  /\ 0 <= crc16_naive_byte crc a < 0x10000.
Proof.
  intros Hcrc. unfold crc_body, crc16_naive_byte.
  pose proof (ord_range a) as Ha.
  set (x := Z.lxor crc (ord a)).
  destruct (crc16_table_lookup (Z.land x 0xff) (land_255_range x))
    as [Hget Hrng].
  rewrite Hget. cbn [bind].
  assert (Hhi : Z.shiftr x 8 = Z.shiftr crc 8).
  { unfold x. rewrite Z.shiftr_lxor.
    rewrite (Z.shiftr_div_pow2 (ord a)) by lia.
    rewrite (Z.div_small (ord a)) by (change (2 ^ 8) with 256; lia).
    apply Z.lxor_0_r. }
  assert (Hsmall : 0 <= Z.shiftr crc 8 < 256).
  { rewrite Z.shiftr_div_pow2 by lia. change (2 ^ 8) with 256.
    split; [apply Z.div_pos; lia|].
    apply Z.div_lt_upper_bound; lia. }
  rewrite (land_255_small _ Hsmall).
  assert (E : Nat.iter 8 crc16_shift x
              = Z.lxor (Z.shiftr crc 8) (Nat.iter 8 crc16_shift (Z.land x 255))).
  { rewrite (split_low_high x) at 1.
    rewrite iter_crc16_shift_lxor.
    pose proof (iter_crc16_shift_shiftl 8 (Z.shiftr x 8)) as Hs.
    change (Z.of_nat 8) with 8 in Hs. rewrite Hs, Hhi. apply Z.lxor_comm. }
  rewrite E. split; [reflexivity|].
  change 0x10000 with (2 ^ 16) in *.
  apply lxor_lt_pow2; [|exact Hrng].
  change (2 ^ 16) with 65536. lia.
Qed.

Lemma crc_loop_naive (data : list byte) (crc : Z) :
  0 <= crc < 0x10000 ->
  for_each data crc_body crc = Ok (fold_left crc16_naive_byte data crc)
  /\ 0 <= fold_left crc16_naive_byte data crc < 0x10000.
Proof.
  revert crc. induction data as [|a data IH]; intros crc Hcrc.
  - cbn. split; [reflexivity|exact Hcrc].
  - destruct (crc_body_naive crc a Hcrc) as [Hstep Hrng].
    cbn [for_each fold_left]. rewrite Hstep. cbn [bind].
    apply IH. exact Hrng.
Qed.

(** ** LRC value *)

Lemma lxor_255_small : forallb (fun m => Z.lxor m 0xff =? 255 - m) (range 0 256) = true.
Proof. vm_compute. reflexivity. Qed.

(** What [computeLRC] returns: [256 - (sum mod 256)], a value of [1..256]. *)
Lemma computeLRC_value (data : list byte) :
  computeLRC data = 256 - (sum_ord data) mod 256.
Proof.
  unfold computeLRC.
  pose proof (land_255_range (sum_ord data)) as Hr.
  replace (sum_ord data mod 256) with (Z.land (sum_ord data) 0xff)
    by (change 0xff with (Z.ones 8); rewrite Z.land_ones by lia; reflexivity).
  pose proof lxor_255_small as H. rewrite forallb_forall in H.
  specialize (H _ (in_range 0 256 _ Hr)). apply Z.eqb_eq in H.
  rewrite H. lia.
Qed.

(** ** Range of the CRC *)

Lemma crc16_table_range :
  Forall (fun e => 0 <= e < 0x10000) __generate_crc16_table.
Proof.
  apply Forall_forall. intros e He.
  assert (H : forallb (fun e => (0 <=? e) && (e <? 0x10000))
                __generate_crc16_table = true)
    by (vm_compute; reflexivity).
  rewrite forallb_forall in H. specialize (H e He).
  apply andb_true_iff in H. lia.
Qed.

Lemma computeCRC_naive (data : list byte) :
  computeCRC data = Ok (crc16_naive data)
  /\ 0 <= crc16_naive data < 0x10000.
Proof.
  unfold computeCRC, crc16_naive. apply crc_loop_naive. lia.
Qed.

(** ** Groups of bits and their byte values *)

Lemma chr_ok (v : Z) :
  0 <= v < 256 -> exists c, chr v = Ok c /\ ord c = v.
Proof.
  intros Hv. unfold chr.
  replace ((v <? 0) || (256 <=? v)) with false
    by (symmetry; apply orb_false_iff; split; [apply Z.ltb_ge|apply Z.leb_gt]; lia).
  destruct (Byte.of_N (Z.to_N v)) as [c|] eqn:E.
  - exists c. split; [reflexivity|].
    apply Byte.to_of_N in E. unfold ord. rewrite E. lia.
  - apply Byte.of_N_None_iff in E. lia.
Qed.

Lemma bits_to_Z_range (g : list bool) :
  0 <= bits_to_Z g < 2 ^ Z.of_nat (length g).
Proof.
  induction g as [|b g IH].
  - cbn. lia.
  - cbn [bits_to_Z length]. rewrite Nat2Z.inj_succ, Z.pow_succ_r by lia.
    destruct b; cbn [Z.b2z]; lia.
Qed.

Lemma bits_to_Z_snoc (g : list bool) (b : bool) :
  bits_to_Z (g ++ [b]) = bits_to_Z g + 2 ^ Z.of_nat (length g) * Z.b2z b.
Proof.
  induction g as [|a g IH].
  - cbn [app bits_to_Z length]. change (2 ^ Z.of_nat 0) with 1. lia.
  - cbn [app bits_to_Z length]. rewrite IH, Nat2Z.inj_succ, Z.pow_succ_r by lia.
    lia.
Qed.

Lemma bits_to_Z_testbit (g : list bool) (j : nat) :
  Z.testbit (bits_to_Z g) (Z.of_nat j) = nth j g false.
Proof.
  revert j. induction g as [|b g IH]; intros j.
  - cbn [bits_to_Z]. rewrite Z.testbit_0_l. destruct j; reflexivity.
  - cbn [bits_to_Z]. rewrite Z.add_comm. destruct j as [|j].
    + cbn [nth Z.of_nat]. apply Z.testbit_0_r.
    + rewrite Nat2Z.inj_succ, Z.testbit_succ_r by lia. apply IH.
Qed.

Lemma byte_bits_length (v : Z) : length (byte_bits v) = 8%nat.
Proof. reflexivity. Qed.

Lemma byte_bits_nth (v : Z) (j : nat) :
  (j < 8)%nat -> nth j (byte_bits v) false = Z.testbit v (Z.of_nat j).
Proof.
  intros Hj. unfold byte_bits.
  do 8 (destruct j as [|j]; [reflexivity|]). lia.
Qed.

Lemma byte_bits_bits_to_Z (g : list bool) :
  length g = 8%nat -> byte_bits (bits_to_Z g) = g.
Proof.
  intros Hg. unfold byte_bits.
  rewrite (map_ext _ (fun j => nth j g false)) by (intros j; apply bits_to_Z_testbit).
  do 8 (destruct g as [|? g]; [discriminate|]).
  destruct g; [reflexivity|discriminate].
Qed.

(** ** The loop of [packBitsToString] *)

Lemma pack_body_emit (r : list byte) (g : list bool) (b : bool) :
  length g = 7%nat ->
  exists c, pack_body (mkPack r (Z.of_nat (length g)) (pending g)) b
            = Ok (mkPack (r ++ [c]) 0 0)
            /\ ord c = bits_to_Z (g ++ [b]).
Proof.
  intros Hg. unfold pack_body, pending. cbn [ret i packed].
  rewrite Hg. change (Z.of_nat 7 + 1 =? 8) with true. cbv iota.
  change (2 ^ (7 - Z.of_nat 7)) with 1. rewrite Z.mul_1_r.
  pose proof (bits_to_Z_range g) as Hr. rewrite Hg in Hr.
  change (2 ^ Z.of_nat 7) with 128 in Hr.
  assert (E : (if b then bits_to_Z g + 128 else bits_to_Z g)
              = bits_to_Z (g ++ [b])).
  { rewrite bits_to_Z_snoc, Hg. change (2 ^ Z.of_nat 7) with 128.
    destruct b; cbn [Z.b2z]; lia. }
  rewrite E.
  destruct (chr_ok (bits_to_Z (g ++ [b]))) as [c [Hc Ho]].
  { rewrite <- E. destruct b; lia. }
  exists c. rewrite Hc. cbn [bind]. split; [reflexivity|exact Ho].
Qed.

Lemma pack_body_keep (r : list byte) (g : list bool) (b : bool) :
  (length g < 7)%nat ->
  pack_body (mkPack r (Z.of_nat (length g)) (pending g)) b
  = Ok (mkPack r (Z.of_nat (length (g ++ [b]))) (pending (g ++ [b]))).
Proof.
  intros Hg. unfold pack_body, pending. cbn [ret i packed].
  destruct (Z.eqb_spec (Z.of_nat (length g) + 1) 8) as [E|_]; [lia|].
  rewrite length_app. cbn [length]. rewrite Nat2Z.inj_add. cbn [Z.of_nat Pos.of_succ_nat].
  f_equal. f_equal.
  set (k := Z.of_nat (length g)).
  assert (Hk : 0 <= k < 7) by (unfold k; lia).
  rewrite bits_to_Z_snoc. fold k.
  rewrite Z.shiftr_div_pow2 by lia. change (2 ^ 1) with 2.
  replace (7 - k) with (Z.succ (6 - k)) by lia.
  rewrite Z.pow_succ_r by lia.
  replace (7 - (k + 1)) with (6 - k) by lia.
  assert (E64 : 2 ^ k * 2 ^ (6 - k) = 64).
  { rewrite <- Z.pow_add_r by lia. replace (k + (6 - k)) with 6 by lia.
    reflexivity. }
  replace (if b then bits_to_Z g * (2 * 2 ^ (6 - k)) + 128
           else bits_to_Z g * (2 * 2 ^ (6 - k)))
    with ((bits_to_Z g * 2 ^ (6 - k) + 64 * Z.b2z b) * 2)
    by (destruct b; cbn [Z.b2z]; lia).
  rewrite Z.div_mul by lia.
  rewrite Z.mul_add_distr_r.
  replace (2 ^ k * Z.b2z b * 2 ^ (6 - k)) with (2 ^ k * 2 ^ (6 - k) * Z.b2z b) by lia.
  rewrite E64. reflexivity.
Qed.

(** The loop cuts [g ++ bits] into full groups of eight, emitted in
    order, and a pending remainder of fewer than eight bits. *)
Lemma pack_loop (bits : list bool) :
  forall (g : list bool) (r : list byte),
    (length g < 8)%nat ->
    exists (gs : list (list bool)) (g' : list bool) (r' : list byte),
      g ++ bits = concat gs ++ g'
      /\ Forall (fun grp => length grp = 8%nat) gs
      /\ (length g' < 8)%nat
      /\ for_each bits pack_body (mkPack r (Z.of_nat (length g)) (pending g))
         = Ok (mkPack (r ++ r') (Z.of_nat (length g')) (pending g'))
      /\ map ord r' = map bits_to_Z gs.
Proof.
  induction bits as [|b bits IH]; intros g r Hg.
  - exists [], g, []. rewrite !app_nil_r. cbn.
    repeat split; [constructor|exact Hg].
  - cbn [for_each].
    destruct (Nat.eq_dec (length g) 7) as [E7|N7].
    + destruct (pack_body_emit r g b E7) as [c [Hc Ho]].
      rewrite Hc. cbn [bind].
      destruct (IH [] (r ++ [c])) as [gs [g' [r' [Hcat [Hall [Hlen [Hrun Hval]]]]]]].
      { cbn. lia. }
      exists ((g ++ [b]) :: gs), g', (c :: r').
      split; [|split; [|split; [exact Hlen|split]]].
      * cbn [concat]. rewrite <- !app_assoc, <- Hcat. reflexivity.
      * constructor; [|exact Hall]. rewrite length_app, E7. reflexivity.
      * change (Z.of_nat (length (@nil bool))) with 0 in Hrun.
        change (pending []) with 0 in Hrun.
        rewrite Hrun, <- app_assoc. reflexivity.
      * cbn [map]. rewrite Ho, Hval. reflexivity.
    + rewrite pack_body_keep by lia. cbn [bind].
      destruct (IH (g ++ [b]) r) as [gs [g' [r' [Hcat [Hall [Hlen [Hrun Hval]]]]]]].
      { rewrite length_app. cbn [length]. lia. }
      exists gs, g', r'.
      rewrite <- app_assoc in Hcat. cbn [app] in Hcat.
      repeat split; assumption.
Qed.

(** [packBitsToString] returns one byte per group of [bits]: the full
    groups of eight in order, then the partial group when there is one. *)
Lemma pack_groups (bits : list bool) :
  exists (gs : list (list bool)) (g' : list bool) (out : list byte),
    bits = concat gs ++ g'
    /\ Forall (fun grp => length grp = 8%nat) gs
    /\ (length g' < 8)%nat
    /\ packBitsToString bits = Ok out
    /\ map ord out = map bits_to_Z (gs ++ partial_group g').
Proof.
  destruct (pack_loop bits [] []) as [gs [g' [r' [Hcat [Hall [Hlen [Hrun Hval]]]]]]].
  { cbn. lia. }
  cbn [app] in Hcat, Hrun.
  change (Z.of_nat (length (@nil bool))) with 0 in Hrun.
  change (pending []) with 0 in Hrun.
  unfold packBitsToString. rewrite Hrun. cbn [bind ret i packed].
  destruct g' as [|b g'].
  - exists gs, [], r'. cbn [partial_group length Z.of_nat Z.ltb Z.compare andb].
    rewrite !app_nil_r in *.
    repeat split; assumption.
  - assert (Hk : 0 < Z.of_nat (length (b :: g')) < 8) by (cbn [length] in *; lia).
    set (g := b :: g') in *.
    replace ((0 <? Z.of_nat (length g)) && (Z.of_nat (length g) <? 8)) with true
      by (symmetry; apply andb_true_iff; split; apply Z.ltb_lt; lia).
    unfold pending. rewrite Z.shiftr_div_pow2 by lia.
    rewrite Z.div_mul by (apply Z.pow_nonzero; lia).
    pose proof (bits_to_Z_range g) as Hr.
    assert (Hp : 2 ^ Z.of_nat (length g) <= 2 ^ 8)
      by (apply Z.pow_le_mono_r; lia).
    change (2 ^ 8) with 256 in Hp.
    destruct (chr_ok (bits_to_Z g)) as [c [Hc Ho]]; [lia|].
    rewrite Hc. cbn [bind].
    exists gs, g, (r' ++ [c]).
    repeat split; try assumption.
    rewrite !map_app, Hval. cbn [map]. rewrite Ho. reflexivity.
Qed.

(** ** The loops of [unpackBitsFromString] *)

Lemma for_each_app {A S : Type} (xs ys : list A) (body : S -> A -> result S)
  (s : S) :
  for_each (xs ++ ys) body s = (s' <- for_each xs body s ;; for_each ys body s').
Proof.
  revert s. induction xs as [|x xs IH]; intros s; cbn [app for_each bind].
  - reflexivity.
  - destruct (body s x) as [s1|e]; cbn [bind]; [apply IH|reflexivity].
Qed.

Lemma range_nil (lo hi : Z) : hi <= lo -> range lo hi = [].
Proof.
  intros H. unfold range. replace (Z.to_nat (hi - lo)) with 0%nat by lia.
  reflexivity.
Qed.

Lemma range_cons (lo hi : Z) : lo < hi -> range lo hi = lo :: range (lo + 1) hi.
Proof.
  intros H. unfold range.
  replace (Z.to_nat (hi - lo)) with (S (Z.to_nat (hi - (lo + 1)))) by lia.
  cbn [seq map]. f_equal; [lia|].
  rewrite <- seq_shift, map_map. apply map_ext. intros k. lia.
Qed.

Lemma range_app (lo mid hi : Z) :
  lo <= mid <= hi -> range lo hi = range lo mid ++ range mid hi.
Proof.
  remember (Z.to_nat (mid - lo)) as n eqn:En.
  revert lo En. induction n as [|n IH]; intros lo En H.
  - replace mid with lo by lia. rewrite (range_nil lo lo) by lia. reflexivity.
  - rewrite (range_cons lo hi), (range_cons lo mid) by lia.
    cbn [app]. f_equal. apply IH; lia.
Qed.

Lemma land_1_testbit (v : Z) : (Z.land v 1 =? 1) = Z.testbit v 0.
Proof.
  change 1 with (Z.ones 1) at 1. rewrite Z.land_ones by lia.
  change (2 ^ 1) with 2. rewrite <- Z.bit0_mod.
  destruct (Z.testbit v 0); reflexivity.
Qed.

(** The inner loop appends the low bits of [value], lowest first. *)
Lemma unpack_bit_loop (l : list Z) :
  forall (bits : list bool) (value : Z),
    for_each l unpack_bit (bits, value)
    = Ok (bits ++ map (fun j => Z.testbit value (Z.of_nat j)) (seq 0 (length l)),
          Z.shiftr value (Z.of_nat (length l))).
Proof.
  induction l as [|x l IH]; intros bits value.
  - cbn. rewrite app_nil_r. reflexivity.
  - cbn [for_each unpack_bit bind length]. rewrite IH.
    rewrite <- app_assoc. cbn [app seq map Z.of_nat].
    rewrite land_1_testbit, Z.shiftr_shiftr by lia.
    f_equal. f_equal.
    + f_equal. f_equal.
      rewrite <- seq_shift, map_map. apply map_ext. intros k.
      rewrite Z.shiftr_spec by lia. f_equal. lia.
    + f_equal. lia.
Qed.

Lemma unpack_inner (bits : list bool) (value : Z) :
  for_each (range 0 8) unpack_bit (bits, value)
  = Ok (bits ++ byte_bits value, Z.shiftr value 8).
Proof. apply (unpack_bit_loop (range 0 8)). Qed.

Lemma getitem_middle {A : Type} (pre post : list A) (c : A) :
  getitem (pre ++ c :: post) (Z.of_nat (length pre)) = Ok c.
Proof.
  unfold getitem. rewrite length_app. cbn [length].
  destruct (Z.ltb_spec (Z.of_nat (length pre)) 0) as [H|_]; [lia|].
  replace ((Z.of_nat (length pre) <? 0)
           || (Z.of_nat (length pre + S (length post)) <=? Z.of_nat (length pre)))
    with false
    by (symmetry; apply orb_false_iff; split; [apply Z.ltb_ge|apply Z.leb_gt]; lia).
  rewrite Nat2Z.id, nth_error_app2 by lia.
  rewrite Nat.sub_diag. reflexivity.
Qed.

Lemma getitem_beyond {A : Type} (s : list A) (k : Z) :
  Z.of_nat (length s) <= k -> getitem s k = Raise IndexError.
Proof.
  intros H. unfold getitem.
  destruct (Z.ltb_spec k 0) as [H0|_]; [lia|].
  replace ((k <? 0) || (Z.of_nat (length s) <=? k)) with true
    by (symmetry; apply orb_true_iff; right; apply Z.leb_le; lia).
  reflexivity.
Qed.

(** The outer loop over the positions of [data] inside the string decodes
    [data], byte after byte. *)
Lemma unpack_loop_ok (data : list byte) :
  forall (pre post : list byte) (bits : list bool),
    for_each (range (Z.of_nat (length pre))
                    (Z.of_nat (length pre) + Z.of_nat (length data)))
      (unpack_body (pre ++ data ++ post)) bits
    = Ok (bits ++ decode_bytes data).
Proof.
  induction data as [|c data IH]; intros pre post bits.
  - cbn [length Z.of_nat]. rewrite range_nil by lia. cbn.
    rewrite app_nil_r. reflexivity.
  - cbn [length]. rewrite range_cons by lia. cbn [for_each].
    unfold unpack_body at 1. cbn [app].
    rewrite getitem_middle. cbn [bind]. rewrite unpack_inner. cbn [bind fst].
    specialize (IH (pre ++ [c]) post (bits ++ byte_bits (ord c))).
    rewrite length_app in IH. cbn [length] in IH.
    rewrite <- app_assoc in IH. cbn [app] in IH.
    replace (Z.of_nat (length pre) + 1) with (Z.of_nat (length pre + 1)) by lia.
    replace (Z.of_nat (length pre) + Z.of_nat (S (length data)))
      with (Z.of_nat (length pre + 1) + Z.of_nat (length data)) by lia.
    rewrite IH, <- app_assoc. reflexivity.
Qed.

(** Past the end of the string the first subscript raises. *)
Lemma unpack_loop_beyond (string : list byte) (lo hi : Z) (bits : list bool) :
  Z.of_nat (length string) <= lo < hi ->
  for_each (range lo hi) (unpack_body string) bits = Raise IndexError.
Proof.
  intros H. rewrite range_cons by lia. cbn [for_each].
  unfold unpack_body at 1. rewrite getitem_beyond by lia. reflexivity.
Qed.

(** [unpackBitsFromString] on a non-empty string, in closed form. *)
Lemma unpack_cons (c : byte) (rest : list byte) :
  unpackBitsFromString (c :: rest)
  = if ord c <=? Z.of_nat (length rest)
    then Ok (decode_bytes (firstn (Z.to_nat (ord c)) rest), ord c)
    else Raise IndexError.
Proof.
  pose proof (ord_range c) as Hc.
  unfold unpackBitsFromString.
  change (c :: rest) with ([] ++ c :: rest) at 1.
  change 0 with (Z.of_nat (length (@nil byte))) at 1.
  rewrite getitem_middle. cbn [bind app].
  destruct (Z.leb_spec (ord c) (Z.of_nat (length rest))) as [Hle|Hgt].
  - rewrite <- (firstn_skipn (Z.to_nat (ord c)) rest) at 1.
    pose proof (unpack_loop_ok (firstn (Z.to_nat (ord c)) rest) [c]
                  (skipn (Z.to_nat (ord c)) rest) []) as H.
    rewrite length_firstn in H. cbn [length app] in H.
    replace (Z.of_nat 1 + Z.of_nat (Nat.min (Z.to_nat (ord c)) (length rest)))
      with (ord c + 1) in H by lia.
    change (Z.of_nat 1) with 1 in H. rewrite H. reflexivity.
  - rewrite (range_app 1 (Z.of_nat (length rest) + 1)) by lia.
    rewrite for_each_app.
    pose proof (unpack_loop_ok rest [c] [] []) as H.
    cbn [length app] in H. rewrite app_nil_r in H.
    change (Z.of_nat 1) with 1 in H.
    rewrite (Z.add_comm 1) in H. rewrite H. cbn [bind].
    rewrite unpack_loop_beyond by (cbn [length]; lia). reflexivity.
Qed.

(** ** Positions of bits in groups and bytes *)

Lemma decode_bytes_length (data : list byte) :
  length (decode_bytes data) = (8 * length data)%nat.
Proof.
  induction data as [|c data IH]; [reflexivity|].
  unfold decode_bytes in *. cbn [flat_map]. rewrite length_app, IH.
  rewrite byte_bits_length. cbn [length]. lia.
Qed.

(** Bit [j] of the decoded list is bit [j mod 8] of data byte [j / 8]. *)
Lemma decode_bytes_nth (data : list byte) :
  forall j : nat,
    (j < 8 * length data)%nat ->
    exists c, nth_error data (j / 8) = Some c
              /\ nth j (decode_bytes data) false
                 = Z.testbit (ord c) (Z.of_nat (j mod 8)).
Proof.
  induction data as [|c data IH]; intros j Hj.
  - cbn [length] in Hj. lia.
  - unfold decode_bytes. cbn [flat_map]. fold (decode_bytes data).
    destruct (Nat.lt_ge_cases j 8) as [Hlt|Hge].
    + exists c. rewrite Nat.div_small, Nat.mod_small by exact Hlt.
      split; [reflexivity|].
      rewrite app_nth1 by (rewrite byte_bits_length; exact Hlt).
      apply byte_bits_nth. exact Hlt.
    + destruct (IH (j - 8)%nat) as [c' [Hc' Hb]].
      { cbn [length] in Hj. lia. }
      exists c'.
      replace (j / 8)%nat with (S ((j - 8) / 8)) by div_lia.
      replace (j mod 8)%nat with ((j - 8) mod 8)%nat by div_lia.
      split; [exact Hc'|].
      rewrite app_nth2 by (rewrite byte_bits_length; exact Hge).
      rewrite byte_bits_length. exact Hb.
Qed.

(** Decoding the bytes of full groups gives the groups back. *)
Lemma decode_bytes_groups (out : list byte) :
  forall gs : list (list bool),
    Forall (fun grp => length grp = 8%nat) gs ->
    map ord out = map bits_to_Z gs ->
    decode_bytes out = concat gs.
Proof.
  induction out as [|c out IH]; intros gs Hall Hmap.
  - destruct gs; [reflexivity|discriminate].
  - destruct gs as [|grp gs]; [discriminate|].
    cbn [map] in Hmap. injection Hmap as Hc Hrest.
    inversion Hall as [|? ? Hgrp Hall']; subst.
    unfold decode_bytes. cbn [flat_map concat]. fold (decode_bytes out).
    rewrite Hc, (byte_bits_bits_to_Z grp Hgrp), (IH gs Hall' Hrest).
    reflexivity.
Qed.

Lemma concat_groups_length (gs : list (list bool)) :
  Forall (fun grp => length grp = 8%nat) gs ->
  length (concat gs) = (8 * length gs)%nat.
Proof.
  induction 1 as [|grp gs Hgrp _ IH]; [reflexivity|].
  cbn [concat length]. rewrite length_app, Hgrp, IH. lia.
Qed.

Lemma groups_count (gs : list (list bool)) (g' : list bool) :
  Forall (fun grp => length grp = 8%nat) gs ->
  (length g' < 8)%nat ->
  length (gs ++ partial_group g') = ceil8 (length (concat gs ++ g')).
Proof.
  intros Hall Hlen. unfold ceil8.
  rewrite !length_app, (concat_groups_length gs Hall).
  destruct g' as [|b g']; cbn [partial_group length] in *; div_lia.
Qed.

(** Bit [i] of the input sits in group [i / 8] at position [i mod 8]. *)
Lemma groups_nth (gs : list (list bool)) :
  forall (g' : list bool) (i : nat),
    Forall (fun grp => length grp = 8%nat) gs ->
    (length g' < 8)%nat ->
    (i < length (concat gs ++ g'))%nat ->
    nth i (concat gs ++ g') false
    = nth (i mod 8) (nth (i / 8) (gs ++ partial_group g') []) false.
Proof.
  induction gs as [|grp gs IH]; intros g' i Hall Hlen Hi.
  - cbn [concat app] in *.
    rewrite Nat.div_small, Nat.mod_small by lia.
    destruct g'; [cbn [length] in Hi; lia|reflexivity].
  - inversion Hall as [|? ? Hgrp Hall']; subst.
    cbn [concat app] in *. rewrite <- app_assoc in *.
    destruct (Nat.lt_ge_cases i 8) as [Hlt|Hge].
    + rewrite Nat.div_small, Nat.mod_small by exact Hlt.
      rewrite app_nth1 by lia. reflexivity.
    + rewrite app_nth2 by lia. rewrite Hgrp.
      replace (i / 8)%nat with (S ((i - 8) / 8)) by div_lia.
      replace (i mod 8)%nat with ((i - 8) mod 8)%nat by div_lia.
      cbn [nth]. apply IH; [exact Hall'|exact Hlen|].
      rewrite length_app, Hgrp in Hi. lia.
Qed.

(** The byte that carries a given group. *)
Lemma group_byte (out : list byte) (G : list (list bool)) (m : nat) :
  map ord out = map bits_to_Z G ->
  (m < length G)%nat ->
  exists c, nth_error out m = Some c /\ ord c = bits_to_Z (nth m G []).
Proof.
  intros Hmap Hm.
  assert (Hlen : length out = length G).
  { rewrite <- (length_map ord out), Hmap. apply length_map. }
  destruct (nth_error out m) as [c|] eqn:E.
  - exists c. split; [reflexivity|].
    pose proof (map_nth_error ord m out E) as H1. rewrite Hmap in H1.
    pose proof (map_nth_error bits_to_Z m G (nth_error_nth' G [] Hm)) as H2.
    congruence.
  - apply nth_error_None in E. lia.
Qed.

(** * Properties of the specification *)

(** ** Bit packer *)

(** C1, as the specification states it, fails: [packBitsToString] emits no
    count byte, so [unpackBitsFromString] reads the first data byte as the
    count. Eight [False] bits pack to the single byte 0, which unpacks to
    no bits at all and the count 0. *)
Lemma roundtrip_counterexample :
  (length (repeat false 8) mod 8 = 0)%nat
  /\ (out <- packBitsToString (repeat false 8) ;; unpackBitsFromString out)
     = Ok ([], 0)
  /\ (out <- packBitsToString (repeat false 8) ;; unpackBitsFromString out)
     <> Ok (repeat false 8, Z.of_nat (length (repeat false 8) / 8)).
Proof.
  split; [reflexivity|]. split; [vm_compute; reflexivity|].
  vm_compute. discriminate.
Qed.

(** C1 (amended): for every list of booleans whose length is a multiple of
    8 and whose packed form has at most 255 bytes, putting the count byte
    [chr(len(packed))] in front of [packBitsToString(bits)] and unpacking
    the result returns exactly [(bits, len(bits)/8)]. *)
Theorem roundtrip_with_count (bits : list bool) :
  (length bits mod 8 = 0)%nat ->
  (length bits / 8 < 256)%nat ->
  exists (out : list byte) (c : byte),
    packBitsToString bits = Ok out
    /\ chr (Z.of_nat (length out)) = Ok c
    /\ unpackBitsFromString (c :: out)
       = Ok (bits, Z.of_nat (length bits / 8)).
Proof.
  intros Hmod Hsmall.
  destruct (pack_groups bits) as [gs [g' [out [Hcat [Hall [Hlen [Hpack Hval]]]]]]].
  assert (Hbits : length bits = (8 * length gs + length g')%nat).
  { rewrite Hcat, length_app, (concat_groups_length gs Hall). reflexivity. }
  assert (Hg' : g' = []).
  { destruct g' as [|b g']; [reflexivity|]. cbn [length] in *. div_lia. }
  subst g'. cbn [partial_group length] in *. rewrite app_nil_r in Hcat, Hval.
  assert (Hout : length out = length gs).
  { rewrite <- (length_map ord out), Hval. apply length_map. }
  assert (Hdiv : (length bits / 8)%nat = length out) by div_lia.
  destruct (chr_ok (Z.of_nat (length out))) as [c [Hc Ho]]; [lia|].
  exists out, c. split; [exact Hpack|]. split; [exact Hc|].
  rewrite unpack_cons, Ho, Z.leb_refl, Nat2Z.id, firstn_all.
  rewrite (decode_bytes_groups out gs Hall Hval), <- Hcat, Hdiv.
  reflexivity.
Qed.

Lemma roundtrip_with_count_witness :
  (length (repeat true 16) mod 8 = 0)%nat
  /\ (length (repeat true 16) / 8 < 256)%nat
  /\ exists (out : list byte) (c : byte),
       packBitsToString (repeat true 16) = Ok out
       /\ chr (Z.of_nat (length out)) = Ok c
       /\ unpackBitsFromString (c :: out)
          = Ok (repeat true 16, Z.of_nat (length (repeat true 16) / 8)).
Proof.
  split; [reflexivity|]. split; [cbn; lia|].
  apply (roundtrip_with_count (repeat true 16)); [reflexivity|cbn; lia].
Defined.



(** C6: for every list of booleans and every index [i < len(bits)], data
    byte number [i / 8] of the output of [packBitsToString] has its bit
    [i mod 8] equal to [bits[i]]; and when the final group is partial, with
    [k] bits ([0 < k < 8]), it is the last byte of the output and its bits
    from position [k] upwards are zero. *)
Theorem pack_bit_layout (bits : list bool) :
  exists out : list byte,
    packBitsToString bits = Ok out
    /\ (forall i : nat,
          (i < length bits)%nat ->
          exists c, nth_error out (i / 8) = Some c
                    /\ Z.testbit (ord c) (Z.of_nat (i mod 8))
                       = nth i bits false)
    /\ (forall k : nat,
          k = (length bits mod 8)%nat -> (0 < k)%nat ->
          exists c, nth_error out (length bits / 8) = Some c
                    /\ length out = S (length bits / 8)
                    /\ forall j : nat,
                         (k <= j)%nat ->
                         Z.testbit (ord c) (Z.of_nat j) = false).
Proof.
  destruct (pack_groups bits) as [gs [g' [out [Hcat [Hall [Hlen [Hpack Hval]]]]]]].
  assert (Hbits : length bits = (8 * length gs + length g')%nat).
  { rewrite Hcat, length_app, (concat_groups_length gs Hall). reflexivity. }
  assert (Hout : length out = length (gs ++ partial_group g')).
  { rewrite <- (length_map ord out), Hval. apply length_map. }
  pose proof (groups_count gs g' Hall Hlen) as Hcount.
  rewrite <- Hcat in Hcount. unfold ceil8 in Hcount.
  exists out. split; [exact Hpack|]. split.
  - intros i Hi.
    destruct (group_byte out _ (i / 8) Hval) as [c [Hc Ho]].
    { rewrite Hcount. div_lia. }
    exists c. split; [exact Hc|].
    rewrite Ho, bits_to_Z_testbit, Hcat. symmetry.
    apply groups_nth; [exact Hall|exact Hlen|]. rewrite <- Hcat. exact Hi.
  - intros k Hk Hpos.
    assert (Hdiv : (length bits / 8)%nat = length gs) by div_lia.
    assert (Hkg : k = length g') by div_lia.
    destruct g' as [|b g']; [cbn [length] in Hkg; lia|].
    cbn [partial_group] in *.
    destruct (group_byte out _ (length gs) Hval) as [c [Hc Ho]].
    { rewrite length_app. cbn [length]. lia. }
    exists c. rewrite Hdiv. split; [exact Hc|]. split.
    + rewrite Hout, length_app. cbn [length]. lia.
    + intros j Hj.
      rewrite Ho, nth_middle, bits_to_Z_testbit.
      apply nth_overflow. lia.
Qed.

Lemma pack_bit_layout_witness :
  exists out : list byte,
    packBitsToString [true; false; true] = Ok out
    /\ (exists c, nth_error out 0 = Some c
                  /\ Z.testbit (ord c) 2 = true)
    /\ (exists c, nth_error out 0 = Some c
                  /\ length out = 1%nat
                  /\ Z.testbit (ord c) 3 = false).
Proof.
  destruct (pack_bit_layout [true; false; true]) as [out [Hp [Hbit Hpad]]].
  exists out. split; [exact Hp|]. split.
  - destruct (Hbit 2%nat) as [c [Hc Ht]]; [cbn; lia|].
    exists c. split; [exact Hc|exact Ht].
  - destruct (Hpad 3%nat) as [c [Hc [Hl Hz]]]; [reflexivity|lia|].
    exists c. split; [exact Hc|]. split; [exact Hl|].
    apply (Hz 3%nat). lia.
Defined.

(** C7: for every frame whose first byte is [N] and which holds at least
    [N + 1] bytes, [unpackBitsFromString] returns [N] together with a list
    of exactly [8 * N] booleans, whose bit [j] is bit [j mod 8] of frame
    byte [1 + j / 8]; nothing is truncated. *)
Theorem unpack_all_bits (string : list byte) (c : byte) :
  hd_error string = Some c ->
  ord c + 1 <= Z.of_nat (length string) ->
  exists bits : list bool,
    unpackBitsFromString string = Ok (bits, ord c)
    /\ Z.of_nat (length bits) = 8 * ord c
    /\ forall j : nat,
         Z.of_nat j < 8 * ord c ->
         exists b, nth_error string (1 + j / 8) = Some b
                   /\ nth j bits false
                      = Z.testbit (ord b) (Z.of_nat (j mod 8)).
Proof.
  intros Hhd Hlen.
  destruct string as [|c0 rest]; [discriminate|].
  cbn [hd_error] in Hhd. injection Hhd as ->. cbn [length] in Hlen.
  pose proof (ord_range c) as Hc.
  set (n := Z.to_nat (ord c)).
  assert (Hn : length (firstn n rest) = n)
    by (rewrite length_firstn; unfold n; lia).
  exists (decode_bytes (firstn n rest)).
  rewrite unpack_cons.
  replace (ord c <=? Z.of_nat (length rest)) with true
    by (symmetry; apply Z.leb_le; lia).
  split; [reflexivity|]. split.
  - rewrite decode_bytes_length, Hn. unfold n. lia.
  - intros j Hj.
    destruct (decode_bytes_nth (firstn n rest) j) as [b [Hb Hbit]].
    { rewrite Hn. unfold n. lia. }
    exists b. split; [|exact Hbit].
    cbn [Nat.add nth_error].
    rewrite nth_error_firstn in Hb.
    destruct (Nat.ltb_spec (j / 8) n) as [_|Hge]; [exact Hb|discriminate].
Qed.

Lemma unpack_all_bits_witness :
  hd_error [x01; x05; xff] = Some x01
  /\ ord x01 + 1 <= Z.of_nat (length [x01; x05; xff])
  /\ exists bits : list bool,
       unpackBitsFromString [x01; x05; xff] = Ok (bits, ord x01)
       /\ Z.of_nat (length bits) = 8 * ord x01
       /\ forall j : nat,
            Z.of_nat j < 8 * ord x01 ->
            exists b, nth_error [x01; x05; xff] (1 + j / 8) = Some b
                      /\ nth j bits false
                         = Z.testbit (ord b) (Z.of_nat (j mod 8)).
Proof.
  split; [reflexivity|]. split; [vm_compute; discriminate|].
  apply (unpack_all_bits [x01; x05; xff] x01); [reflexivity|].
  vm_compute. discriminate.
Defined.

(** C4, as the specification states it, fails: it names two error
    conditions, [EmptyInput] for the zero-length frame and [InputTooShort]
    for a frame shorter than its count announces. The code has no such
    pair: the subscripts [string[0]] and [string[byte]] raise the same
    [IndexError], so [[]] and [[0x03, 0x01]] fail alike and no two
    different exceptions can stand for the two conditions. *)
Lemma unpack_error_conditions_counterexample :
  unpackBitsFromString [] = Raise IndexError
  /\ unpackBitsFromString [x03; x01] = Raise IndexError
  /\ ~ (exists EmptyInput InputTooShort : exn,
          EmptyInput <> InputTooShort
          /\ unpackBitsFromString [] = Raise EmptyInput
          /\ unpackBitsFromString [x03; x01] = Raise InputTooShort).
Proof.
  assert (H0 : unpackBitsFromString [] = Raise IndexError) by reflexivity.
  assert (H1 : unpackBitsFromString [x03; x01] = Raise IndexError)
    by (vm_compute; reflexivity).
  split; [exact H0|]. split; [exact H1|].
  intros [e1 [e2 [Hne [He1 He2]]]].
  rewrite H0 in He1. rewrite H1 in He2.
  apply Hne. congruence.
Qed.

(** C4 (amended): [unpackBitsFromString] fails with [IndexError] on the
    zero-length frame, and fails with the same [IndexError] whenever the
    count [N] of byte 0 exceeds the number of bytes supplied after it
    (fewer than [N + 1] bytes in all); in particular on [[]] and on
    [[0x03, 0x01]]. The exception is raised by the subscript that falls
    outside the frame. *)
Theorem unpack_error_conditions :
  unpackBitsFromString [] = Raise IndexError
  /\ unpackBitsFromString [x03; x01] = Raise IndexError
  /\ forall (string : list byte) (c : byte),
       hd_error string = Some c ->
       Z.of_nat (length string) < ord c + 1 ->
       unpackBitsFromString string = Raise IndexError.
Proof.
  split; [reflexivity|]. split; [vm_compute; reflexivity|].
  intros string c Hhd Hlen.
  destruct string as [|c0 rest]; [discriminate|].
  cbn [hd_error] in Hhd. injection Hhd as ->. cbn [length] in Hlen.
  rewrite unpack_cons.
  replace (ord c <=? Z.of_nat (length rest)) with false
    by (symmetry; apply Z.leb_gt; lia).
  reflexivity.
Qed.

Lemma unpack_error_conditions_witness :
  hd_error [x02; xff] = Some x02
  /\ Z.of_nat (length [x02; xff]) < ord x02 + 1
  /\ unpackBitsFromString [x02; xff] = Raise IndexError.
Proof.
  split; [reflexivity|]. split; [vm_compute; reflexivity|].
  apply (proj2 (proj2 unpack_error_conditions) [x02; xff] x02);
    [reflexivity|vm_compute; reflexivity].
Defined.

(** C10: bytes beyond position [N], the count of byte 0, never influence
    the output: [unpackBitsFromString] gives the same result on a frame and
    on its first [N + 1] bytes, and so on any two frames that agree on
    their first [N + 1] bytes. *)
Theorem unpack_ignores_trailing :
  (forall (frame : list byte) (c : byte),
     hd_error frame = Some c ->
     unpackBitsFromString frame
     = unpackBitsFromString (firstn (S (Z.to_nat (ord c))) frame))
  /\ (forall (frame1 frame2 : list byte) (c : byte),
        hd_error frame1 = Some c ->
        firstn (S (Z.to_nat (ord c))) frame1
        = firstn (S (Z.to_nat (ord c))) frame2 ->
        unpackBitsFromString frame1 = unpackBitsFromString frame2).
Proof.
  assert (Hsame : forall (frame1 frame2 : list byte) (c : byte),
             hd_error frame1 = Some c ->
             firstn (S (Z.to_nat (ord c))) frame1
             = firstn (S (Z.to_nat (ord c))) frame2 ->
             unpackBitsFromString frame1 = unpackBitsFromString frame2).
  { intros frame1 frame2 c Hhd Heq.
    destruct frame1 as [|c1 r1]; [discriminate|].
    cbn [hd_error] in Hhd. injection Hhd as ->.
    destruct frame2 as [|c2 r2]; [discriminate|].
    cbn [firstn] in Heq. injection Heq as <- Hrest.
    pose proof (ord_range c) as Hc.
    pose proof (f_equal (@length byte) Hrest) as Hl.
    rewrite !length_firstn in Hl.
    rewrite !unpack_cons, Hrest.
    destruct (Z.leb_spec (ord c) (Z.of_nat (length r1))) as [H1|H1];
      destruct (Z.leb_spec (ord c) (Z.of_nat (length r2))) as [H2|H2];
      try reflexivity; lia. }
  split; [|exact Hsame].
  intros frame c Hhd. apply (Hsame _ _ c Hhd).
  rewrite firstn_firstn, Nat.min_id. reflexivity.
Qed.

Lemma unpack_ignores_trailing_witness :
  hd_error [x01; x05; xff] = Some x01
  /\ firstn (S (Z.to_nat (ord x01))) [x01; x05; xff]
     = firstn (S (Z.to_nat (ord x01))) [x01; x05; x00; x07]
  /\ unpackBitsFromString [x01; x05; xff]
     = unpackBitsFromString [x01; x05; x00; x07].
Proof.
  split; [reflexivity|]. split; [reflexivity|].
  apply (proj2 unpack_ignores_trailing [x01; x05; xff] [x01; x05; x00; x07] x01);
    reflexivity.
Defined.

(** ** Checksums *)

(** C3 fails on the code at the empty sequence: [computeLRC] adds one to
    the complemented sum without truncating to 8 bits again, so it returns
    256 where the specification gives 0, outside the range [0..255]. *)
Theorem computeLRC_empty :
  computeLRC [] = 256
  /\ computeLRC [] <> (256 - sum_ord [] mod 256) mod 256
  /\ ~ (0 <= computeLRC [] <= 255).
Proof.
  split; [reflexivity|]. split; [vm_compute; discriminate|].
  change (computeLRC []) with 256. lia.
Qed.

(** C5: for every byte sequence the table-driven [computeCRC] returns the
    bit-by-bit reflected CRC-16 with polynomial [0xA001] and initial value
    [0xFFFF]; on the empty sequence it returns [0xFFFF], and on the frame
    [01 03 00 00 00 0A] the published value [0xCDC5] (sent as [C5 CD]). *)
Theorem computeCRC_refines_naive :
  (forall data : list byte, computeCRC data = Ok (crc16_naive data))
  /\ computeCRC [] = Ok 0xFFFF
  /\ computeCRC [x01; x03; x00; x00; x00; x0a] = Ok 0xCDC5.
Proof.
  split; [intros data; apply computeCRC_naive|].
  split; [reflexivity|vm_compute; reflexivity].
Qed.

(** C8: for every byte sequence [data], [checkCRC(data, computeCRC(data))]
    and [checkLRC(data, computeLRC(data))] both return true. *)
Theorem check_consistency (data : list byte) :
  (exists crc, computeCRC data = Ok crc /\ checkCRC data crc = Ok true)
  /\ checkLRC data (computeLRC data) = true.
Proof.
  split.
  - exists (crc16_naive data).
    destruct (computeCRC_naive data) as [H _].
    split; [exact H|].
    unfold checkCRC. rewrite H. cbn [bind]. rewrite Z.eqb_refl. reflexivity.
  - unfold checkLRC. apply Z.eqb_refl.
Qed.

(** C9: every entry of the generated CRC table is an unsigned 16-bit value,
    the table has 256 entries, and for every byte sequence [computeCRC]
    returns an unsigned 16-bit value. *)
Theorem crc16_range :
  Forall (fun e => 0 <= e < 0x10000) __generate_crc16_table
  /\ length __generate_crc16_table = 256%nat
  /\ forall data : list byte,
       exists crc, computeCRC data = Ok crc /\ 0 <= crc < 0x10000.
Proof.
  split; [exact crc16_table_range|]. split; [vm_compute; reflexivity|].
  intros data. exists (crc16_naive data). apply computeCRC_naive.
Qed.

(** * Further properties of the code *)

(** ** Packing and decoding *)

Lemma byte_bits_bits_to_Z_pad (g : list bool) :
  (length g <= 8)%nat ->
  byte_bits (bits_to_Z g) = g ++ repeat false (8 - length g).
Proof.
  intros Hg. unfold byte_bits.
  rewrite (map_ext _ (fun j => nth j g false)) by (intros j; apply bits_to_Z_testbit).
  do 9 (destruct g as [|? g]; [reflexivity|]).
  cbn [length] in Hg. lia.
Qed.

Lemma decode_bytes_map (out : list byte) :
  forall G : list (list bool),
    map ord out = map bits_to_Z G ->
    decode_bytes out = flat_map (fun g => byte_bits (bits_to_Z g)) G.
Proof.
  induction out as [|c out IH]; intros G Hmap.
  - destruct G; [reflexivity|discriminate].
  - destruct G as [|g G]; [discriminate|].
    cbn [map] in Hmap. injection Hmap as Hc Hrest.
    unfold decode_bytes. cbn [flat_map]. fold (decode_bytes out).
    rewrite Hc, (IH G Hrest). reflexivity.
Qed.

Lemma flat_map_full_groups (gs : list (list bool)) :
  Forall (fun grp => length grp = 8%nat) gs ->
  flat_map (fun g => byte_bits (bits_to_Z g)) gs = concat gs.
Proof.
  induction 1 as [|grp gs Hgrp _ IH]; [reflexivity|].
  cbn [flat_map concat]. rewrite IH, (byte_bits_bits_to_Z grp Hgrp).
  reflexivity.
Qed.

(** Decoding what [packBitsToString] returns gives the bits back, filled
    with [False] up to the next multiple of eight. *)
Lemma pack_decode_padded (bits : list bool) :
  exists out : list byte,
    packBitsToString bits = Ok out
    /\ length out = ceil8 (length bits)
    /\ decode_bytes out = bits ++ repeat false (padding (length bits)).
Proof.
  destruct (pack_groups bits) as [gs [g' [out [Hcat [Hall [Hlen [Hpack Hval]]]]]]].
  exists out. split; [exact Hpack|].
  assert (Hbits : length bits = (8 * length gs + length g')%nat).
  { rewrite Hcat, length_app, (concat_groups_length gs Hall). reflexivity. }
  pose proof (groups_count gs g' Hall Hlen) as Hcount. rewrite <- Hcat in Hcount.
  split.
  { rewrite <- (length_map ord out), Hval, length_map. exact Hcount. }
  rewrite (decode_bytes_map out _ Hval), flat_map_app.
  rewrite (flat_map_full_groups gs Hall).
  unfold padding. rewrite <- Hcount, length_app, Hbits.
  destruct g' as [|b g'].
  - cbn [partial_group flat_map length]. rewrite Hcat.
    replace (8 * (length gs + 0) - (8 * length gs + 0))%nat with 0%nat by lia.
    cbn [repeat]. rewrite !app_nil_r. reflexivity.
  - cbn [partial_group flat_map]. rewrite app_nil_r.
    rewrite byte_bits_bits_to_Z_pad by lia.
    rewrite Hcat, <- app_assoc. f_equal. f_equal. f_equal.
    cbn [length] in *. lia.
Qed.

Lemma pack_body_prefix (r : list byte) (st : pack_state) (b : bool) :
  pack_body (with_prefix r st) b
  = (st' <- pack_body st b ;; Ok (with_prefix r st')).
Proof.
  unfold pack_body, with_prefix. cbn [ret i packed].
  destruct (i st + 1 =? 8).
  - destruct (chr (if b then packed st + 128 else packed st)) as [c|e];
      cbn [bind ret i packed]; [|reflexivity].
    rewrite app_assoc. reflexivity.
  - reflexivity.
Qed.

(** The loop only ever appends to [ret]. *)
Lemma pack_loop_prefix (r : list byte) (bits : list bool) :
  forall st : pack_state,
    for_each bits pack_body (with_prefix r st)
    = (st' <- for_each bits pack_body st ;; Ok (with_prefix r st')).
Proof.
  induction bits as [|b bits IH]; intros st; cbn [for_each bind].
  - reflexivity.
  - rewrite pack_body_prefix.
    destruct (pack_body st b) as [st1|e]; cbn [bind]; [apply IH|reflexivity].
Qed.

Lemma pack_app (a b : list bool) :
  (length a mod 8 = 0)%nat ->
  packBitsToString (a ++ b)
  = (x <- packBitsToString a ;; y <- packBitsToString b ;; Ok (x ++ y)).
Proof.
  intros Hmod.
  destruct (pack_loop a [] []) as [gs [g' [r' [Hcat [Hall [Hlen [Hrun _]]]]]]].
  { cbn. lia. }
  cbn [app] in Hcat, Hrun.
  change (Z.of_nat (length (@nil bool))) with 0 in Hrun.
  change (pending []) with 0 in Hrun.
  assert (Hg' : g' = []).
  { pose proof (f_equal (@length bool) Hcat) as Hl.
    rewrite length_app, (concat_groups_length gs Hall) in Hl.
    destruct g' as [|x g']; [reflexivity|]. cbn [length] in *. div_lia. }
  subst g'. change (Z.of_nat (length (@nil bool))) with 0 in Hrun.
  change (pending []) with 0 in Hrun.
  unfold packBitsToString. rewrite for_each_app, Hrun.
  cbn [bind ret i packed Z.ltb Z.compare andb].
  replace (mkPack r' 0 0) with (with_prefix r' (mkPack [] 0 0))
    by (unfold with_prefix; cbn [ret i packed]; rewrite app_nil_r; reflexivity).
  rewrite pack_loop_prefix.
  destruct (for_each b pack_body (mkPack [] 0 0)) as [st|e];
    cbn [bind]; [|reflexivity].
  unfold with_prefix. cbn [ret i packed].
  destruct ((0 <? i st) && (i st <? 8)); cbn [bind]; [|reflexivity].
  destruct (chr (Z.shiftr (packed st) (7 - i st))) as [c|e];
    cbn [bind]; [|reflexivity].
  rewrite app_assoc. reflexivity.
Qed.

Lemma pack_byte_bits (c : byte) :
  packBitsToString (byte_bits (ord c)) = Ok [c].
Proof. destruct c; vm_compute; reflexivity. Qed.

(** Packing the bits decoded from data bytes gives the bytes back. *)
Lemma pack_decode_bytes (data : list byte) :
  packBitsToString (decode_bytes data) = Ok data.
Proof.
  induction data as [|c data IH]; [reflexivity|].
  unfold decode_bytes. cbn [flat_map]. fold (decode_bytes data).
  rewrite pack_app by reflexivity.
  rewrite pack_byte_bits, IH. reflexivity.
Qed.

(** X1: for every list of booleans that packs into at most 255 bytes,
    unpacking the count byte followed by [packBitsToString(bits)] returns
    the bits followed by [False] up to the next multiple of eight, and the
    count [ceil(len(bits)/8)]. *)
Theorem roundtrip_padded (bits : list bool) :
  (ceil8 (length bits) < 256)%nat ->
  exists (out : list byte) (c : byte),
    packBitsToString bits = Ok out
    /\ chr (Z.of_nat (length out)) = Ok c
    /\ unpackBitsFromString (c :: out)
       = Ok (bits ++ repeat false (padding (length bits)),
             Z.of_nat (ceil8 (length bits))).
Proof.
  intros Hsmall.
  destruct (pack_decode_padded bits) as [out [Hpack [Hlen Hdec]]].
  destruct (chr_ok (Z.of_nat (length out))) as [c [Hc Ho]]; [lia|].
  exists out, c. split; [exact Hpack|]. split; [exact Hc|].
  rewrite unpack_cons, Ho, Z.leb_refl, Nat2Z.id, firstn_all, Hdec, Hlen.
  reflexivity.
Qed.

Lemma roundtrip_padded_witness :
  (ceil8 (length [true; false; true]) < 256)%nat
  /\ exists (out : list byte) (c : byte),
       packBitsToString [true; false; true] = Ok out
       /\ chr (Z.of_nat (length out)) = Ok c
       /\ unpackBitsFromString (c :: out)
          = Ok ([true; false; true]
                  ++ repeat false (padding (length [true; false; true])),
                Z.of_nat (ceil8 (length [true; false; true]))).
Proof.
  split; [cbn; lia|].
  apply (roundtrip_padded [true; false; true]). cbn. lia.
Defined.

(** X2: unpacking then packing: for a frame made of a count byte [N], [N]
    data bytes and anything after them, [packBitsToString] applied to the
    bits that [unpackBitsFromString] returns gives the [N] data bytes
    back. *)
Theorem unpack_then_pack (c : byte) (data extra : list byte) :
  ord c = Z.of_nat (length data) ->
  exists bits : list bool,
    unpackBitsFromString (c :: data ++ extra) = Ok (bits, ord c)
    /\ packBitsToString bits = Ok data.
Proof.
  intros Hc. exists (decode_bytes data).
  rewrite unpack_cons, Hc, length_app.
  replace (Z.of_nat (length data) <=? Z.of_nat (length data + length extra))
    with true by (symmetry; apply Z.leb_le; lia).
  rewrite Nat2Z.id, firstn_app, Nat.sub_diag, firstn_all.
  cbn [firstn]. rewrite app_nil_r.
  split; [reflexivity|apply pack_decode_bytes].
Qed.

Lemma unpack_then_pack_witness :
  ord x02 = Z.of_nat (length [x05; xff])
  /\ exists bits : list bool,
       unpackBitsFromString (x02 :: [x05; xff] ++ [x07]) = Ok (bits, ord x02)
       /\ packBitsToString bits = Ok [x05; xff].
Proof.
  split; [reflexivity|].
  apply (unpack_then_pack x02 [x05; xff] [x07]). reflexivity.
Defined.

(** X3: packing composes over concatenation at a byte boundary: when
    [len(a)] is a multiple of 8, [packBitsToString(a + b)] is
    [packBitsToString(a) + packBitsToString(b)]. *)
Theorem pack_concat (a b : list bool) :
  (length a mod 8 = 0)%nat ->
  exists oa ob : list byte,
    packBitsToString a = Ok oa
    /\ packBitsToString b = Ok ob
    /\ packBitsToString (a ++ b) = Ok (oa ++ ob).
Proof.
  intros Hmod.
  destruct (pack_decode_padded a) as [oa [Ha _]].
  destruct (pack_decode_padded b) as [ob [Hb _]].
  exists oa, ob. split; [exact Ha|]. split; [exact Hb|].
  rewrite (pack_app a b Hmod), Ha, Hb. reflexivity.
Qed.

Lemma pack_concat_witness :
  (length (repeat true 8) mod 8 = 0)%nat
  /\ exists oa ob : list byte,
       packBitsToString (repeat true 8) = Ok oa
       /\ packBitsToString [false; true] = Ok ob
       /\ packBitsToString (repeat true 8 ++ [false; true]) = Ok (oa ++ ob).
Proof.
  split; [reflexivity|].
  apply (pack_concat (repeat true 8) [false; true]). reflexivity.
Defined.

(** X4: the packed form does not record the number of bits: appending
    [False] bits that still fit in the last byte leaves the output of
    [packBitsToString] unchanged. *)
Theorem pack_trailing_false (bits : list bool) (k : nat) :
  (k <= padding (length bits))%nat ->
  packBitsToString (bits ++ repeat false k) = packBitsToString bits.
Proof.
  intros Hk.
  destruct (pack_decode_padded bits) as [out [Hpack [_ Hdec]]].
  destruct (pack_decode_padded (bits ++ repeat false k))
    as [out' [Hpack' [_ Hdec']]].
  rewrite Hpack, Hpack'.
  rewrite <- (pack_decode_bytes out'), <- (pack_decode_bytes out).
  f_equal. rewrite Hdec, Hdec', <- app_assoc, <- repeat_app.
  f_equal. f_equal.
  rewrite length_app, repeat_length.
  unfold padding, ceil8 in *. div_lia.
Qed.

Lemma pack_trailing_false_witness :
  (2 <= padding (length [true; false; true]))%nat
  /\ packBitsToString ([true; false; true] ++ repeat false 2)
     = packBitsToString [true; false; true].
Proof.
  split; [cbn; lia|].
  apply (pack_trailing_false [true; false; true] 2). cbn. lia.
Defined.

(** X5: on lists of the same length [packBitsToString] is injective: two
    different lists of booleans of equal length never pack to the same
    bytes. *)
Theorem pack_injective (a b : list bool) :
  length a = length b ->
  a <> b ->
  packBitsToString a <> packBitsToString b.
Proof.
  intros Hlen Hneq Heq. apply Hneq.
  destruct (pack_decode_padded a) as [oa [Ha [_ Hda]]].
  destruct (pack_decode_padded b) as [ob [Hb [_ Hdb]]].
  rewrite Ha, Hb in Heq. injection Heq as ->.
  rewrite Hda, Hlen in Hdb.
  apply (app_inv_tail _ _ _ Hdb).
Qed.

Lemma pack_injective_witness :
  length [true; false] = length [false; true]
  /\ [true; false] <> [false; true]
  /\ packBitsToString [true; false] <> packBitsToString [false; true].
Proof.
  split; [reflexivity|]. split; [discriminate|].
  apply (pack_injective [true; false] [false; true]);
    [reflexivity|discriminate].
Defined.

(** ** LRC *)

Lemma ord_inj (a b : byte) : ord a = ord b -> a = b.
Proof.
  unfold ord. intros H. apply N2Z.inj in H.
  pose proof (Byte.of_to_N a) as Ha. rewrite H, Byte.of_to_N in Ha.
  congruence.
Qed.

Lemma fold_sum_ord (data : list byte) (acc : Z) :
  fold_left (fun acc a => acc + ord a) data acc = acc + sum_ord data.
Proof.
  unfold sum_ord. revert acc.
  induction data as [|a data IH]; intros acc; cbn [fold_left]; [lia|].
  rewrite (IH (acc + ord a)), (IH (0 + ord a)). lia.
Qed.

Lemma sum_ord_cons (a : byte) (data : list byte) :
  sum_ord (a :: data) = ord a + sum_ord data.
Proof.
  unfold sum_ord at 1. cbn [fold_left]. rewrite fold_sum_ord. lia.
Qed.

Lemma sum_ord_app (xs ys : list byte) :
  sum_ord (xs ++ ys) = sum_ord xs + sum_ord ys.
Proof.
  induction xs as [|x xs IH]; cbn [app].
  - unfold sum_ord at 2. cbn. lia.
  - rewrite !sum_ord_cons, IH. lia.
Qed.

(** X6: [computeLRC] completes the byte sum to a multiple of 256: the sum
    of all bytes of [data] plus [computeLRC(data)] is [0] modulo 256. *)
Theorem computeLRC_completes_sum (data : list byte) :
  (sum_ord data + computeLRC data) mod 256 = 0.
Proof.
  rewrite computeLRC_value.
  Z.to_euclidean_division_equations; lia.
Qed.

(** X7: the LRC detects every change of a single byte: replacing one byte
    of [data] by a different one changes [computeLRC], so [checkLRC] of the
    changed data against the original LRC returns false. *)
Theorem checkLRC_single_byte (pre post : list byte) (a b : byte) :
  a <> b ->
  checkLRC (pre ++ b :: post) (computeLRC (pre ++ a :: post)) = false.
Proof.
  intros Hab. unfold checkLRC. apply Z.eqb_neq. intros Heq.
  rewrite !computeLRC_value, !sum_ord_app, !sum_ord_cons in Heq.
  apply Hab, ord_inj.
  pose proof (ord_range a). pose proof (ord_range b).
  revert Heq.
  generalize (sum_ord pre) (sum_ord post) (ord a) (ord b) H H0.
  clear. intros sp sq x y Hx Hy Heq.
  Z.to_euclidean_division_equations. lia.
Qed.

Lemma checkLRC_single_byte_witness :
  x05 <> x06
  /\ checkLRC ([x01] ++ x06 :: [x0a]) (computeLRC ([x01] ++ x05 :: [x0a]))
     = false.
Proof.
  split; [discriminate|].
  apply (checkLRC_single_byte [x01] [x0a] x05 x06). discriminate.
Defined.

(** X8: the LRC does not depend on the order of the bytes: any
    rearrangement of [data] has the same [computeLRC]. *)
Theorem computeLRC_permutation (data data' : list byte) :
  Permutation data data' ->
  computeLRC data = computeLRC data'.
Proof.
  intros Hperm. rewrite !computeLRC_value. f_equal. f_equal.
  induction Hperm as [|x l l' _ IH|x y l|l l' l'' _ IH1 _ IH2].
  - reflexivity.
  - rewrite !sum_ord_cons, IH. reflexivity.
  - rewrite !sum_ord_cons. lia.
  - congruence.
Qed.

Lemma computeLRC_permutation_witness :
  Permutation [x01; x03; x0a] [x0a; x01; x03]
  /\ computeLRC [x01; x03; x0a] = computeLRC [x0a; x01; x03].
Proof.
  assert (H : Permutation [x01; x03; x0a] [x0a; x01; x03]).
  { apply Permutation_sym.
    apply (Permutation_cons_app [x01; x03] [] x0a). cbn.
    apply Permutation_refl. }
  split; [exact H|].
  apply (computeLRC_permutation [x01; x03; x0a] [x0a; x01; x03] H).
Defined.

(** ** CRC16 *)

Lemma crc16_shift_range (z : Z) :
  0 <= z < 2 ^ 16 -> 0 <= crc16_shift z < 2 ^ 16.
Proof.
  intros Hz. unfold crc16_shift.
  assert (Hs : 0 <= Z.shiftr z 1 < 2 ^ 16).
  { rewrite Z.shiftr_div_pow2 by lia. change (2 ^ 1) with 2.
    change (2 ^ 16) with 65536 in *.
    Z.to_euclidean_division_equations; lia. }
  destruct (Z.odd z); [|exact Hs].
  apply lxor_lt_pow2; [exact Hs|]. change (2 ^ 16) with 65536. lia.
Qed.

Lemma iter_crc16_shift_range (n : nat) (z : Z) :
  0 <= z < 2 ^ 16 -> 0 <= Nat.iter n crc16_shift z < 2 ^ 16.
Proof.
  intros Hz. induction n as [|n IH]; [exact Hz|].
  rewrite Nat.iter_succ. apply crc16_shift_range. exact IH.
Qed.

(** Only zero shifts to zero: the polynomial has its top bit set. *)
Lemma crc16_shift_zero (z : Z) :
  0 <= z < 2 ^ 16 -> crc16_shift z = 0 -> z = 0.
Proof.
  intros Hz. unfold crc16_shift.
  change (2 ^ 16) with 65536 in Hz.
  assert (Hs : Z.shiftr z 1 = z / 2)
    by (rewrite Z.shiftr_div_pow2 by lia; reflexivity).
  destruct (Z.odd z) eqn:Hodd; intros H.
  - apply Z.lxor_eq in H. rewrite Hs in H.
    Z.to_euclidean_division_equations; lia.
  - rewrite Hs in H.
    assert (Hz1 : z = 0 \/ z = 1) by (Z.to_euclidean_division_equations; lia).
    destruct Hz1 as [->| ->]; [reflexivity|discriminate].
Qed.

Lemma crc16_shift_inj (x y : Z) :
  0 <= x < 2 ^ 16 -> 0 <= y < 2 ^ 16 ->
  crc16_shift x = crc16_shift y -> x = y.
Proof.
  intros Hx Hy H. apply Z.lxor_eq.
  apply crc16_shift_zero; [apply lxor_lt_pow2; assumption|].
  rewrite crc16_shift_lxor, H. apply Z.lxor_nilpotent.
Qed.

Lemma iter_crc16_shift_inj (n : nat) (x y : Z) :
  0 <= x < 2 ^ 16 -> 0 <= y < 2 ^ 16 ->
  Nat.iter n crc16_shift x = Nat.iter n crc16_shift y -> x = y.
Proof.
  intros Hx Hy. induction n as [|n IH]; [trivial|].
  rewrite !Nat.iter_succ. intros H. apply IH.
  apply crc16_shift_inj; [apply iter_crc16_shift_range ..|]; assumption.
Qed.

Lemma lxor_ord_range (crc : Z) (a : byte) :
  0 <= crc < 2 ^ 16 -> 0 <= Z.lxor crc (ord a) < 2 ^ 16.
Proof.
  intros Hc. apply lxor_lt_pow2; [exact Hc|].
  pose proof (ord_range a). change (2 ^ 16) with 65536. lia.
Qed.

Lemma lxor_cancel_r (x y z : Z) : Z.lxor x z = Z.lxor y z -> x = y.
Proof.
  intros H. apply (f_equal (fun t => Z.lxor t z)) in H.
  rewrite !Z.lxor_assoc, Z.lxor_nilpotent, !Z.lxor_0_r in H. exact H.
Qed.

Lemma lxor_cancel_l (x y z : Z) : Z.lxor z x = Z.lxor z y -> x = y.
Proof.
  rewrite !(Z.lxor_comm z). apply lxor_cancel_r.
Qed.

(** For a fixed byte the step is injective in the running value, and for
    a fixed running value it is injective in the byte. *)
Lemma crc16_naive_byte_inj_crc (c1 c2 : Z) (a : byte) :
  0 <= c1 < 2 ^ 16 -> 0 <= c2 < 2 ^ 16 ->
  crc16_naive_byte c1 a = crc16_naive_byte c2 a -> c1 = c2.
Proof.
  intros H1 H2 H. unfold crc16_naive_byte in H.
  apply iter_crc16_shift_inj in H; [|apply lxor_ord_range; assumption ..].
  apply (lxor_cancel_r _ _ _ H).
Qed.

Lemma crc16_naive_byte_inj_byte (c : Z) (a b : byte) :
  0 <= c < 2 ^ 16 ->
  crc16_naive_byte c a = crc16_naive_byte c b -> a = b.
Proof.
  intros Hc H. unfold crc16_naive_byte in H.
  apply iter_crc16_shift_inj in H; [|apply lxor_ord_range; assumption ..].
  apply ord_inj. apply (lxor_cancel_l _ _ _ H).
Qed.

Lemma crc16_naive_fold_range (data : list byte) (c : Z) :
  0 <= c < 2 ^ 16 -> 0 <= fold_left crc16_naive_byte data c < 2 ^ 16.
Proof.
  intros Hc. apply (crc_loop_naive data c). exact Hc.
Qed.

Lemma crc16_naive_fold_inj (data : list byte) :
  forall c1 c2 : Z,
    0 <= c1 < 2 ^ 16 -> 0 <= c2 < 2 ^ 16 ->
    fold_left crc16_naive_byte data c1 = fold_left crc16_naive_byte data c2 ->
    c1 = c2.
Proof.
  induction data as [|a data IH]; intros c1 c2 H1 H2 H; [exact H|].
  cbn [fold_left] in H.
  apply IH in H; [|apply (crc16_naive_fold_range [a]); assumption ..].
  apply (crc16_naive_byte_inj_crc c1 c2 a H1 H2 H).
Qed.

(** X9: appending the CRC, low byte first, brings the running value to
    zero: with [crc = computeCRC(data)],
    [computeCRC(data + chr(crc & 0xff) + chr(crc >> 8))] is [0]. *)
Theorem computeCRC_residue (data : list byte) :
  exists (crc : Z) (lo hi : byte),
    computeCRC data = Ok crc
    /\ chr (Z.land crc 0xff) = Ok lo
    /\ chr (Z.shiftr crc 8) = Ok hi
    /\ computeCRC (data ++ [lo; hi]) = Ok 0.
Proof.
  destruct (computeCRC_naive data) as [Hcrc Hrng].
  set (crc := crc16_naive data) in *.
  assert (Hhi : 0 <= Z.shiftr crc 8 < 256).
  { rewrite Z.shiftr_div_pow2 by lia. change (2 ^ 8) with 256.
    Z.to_euclidean_division_equations; lia. }
  destruct (chr_ok (Z.land crc 0xff) (land_255_range crc)) as [lo [Hlo Holo]].
  destruct (chr_ok (Z.shiftr crc 8) Hhi) as [hi [Hhic Hohi]].
  exists crc, lo, hi. split; [exact Hcrc|]. split; [exact Hlo|].
  split; [exact Hhic|].
  destruct (computeCRC_naive (data ++ [lo; hi])) as [H _]. rewrite H.
  f_equal. unfold crc16_naive. rewrite fold_left_app. fold (crc16_naive data).
  fold crc. cbn [fold_left]. unfold crc16_naive_byte.
  rewrite Holo, Hohi.
  assert (E : Z.lxor crc (Z.land crc 255) = Z.shiftl (Z.shiftr crc 8) 8).
  { rewrite (split_low_high crc) at 1.
    rewrite Z.lxor_comm, <- Z.lxor_assoc, Z.lxor_nilpotent. apply Z.lxor_0_l. }
  rewrite E.
  pose proof (iter_crc16_shift_shiftl 8 (Z.shiftr crc 8)) as Hs.
  change (Z.of_nat 8) with 8 in Hs. rewrite Hs, Z.lxor_nilpotent.
  reflexivity.
Qed.

(** X10: the CRC detects every change of a single byte: replacing one
    byte of [data] by a different one changes [computeCRC], so [checkCRC]
    of the changed data against the original CRC returns false. *)
Theorem checkCRC_single_byte (pre post : list byte) (a b : byte) :
  a <> b ->
  exists crc : Z,
    computeCRC (pre ++ a :: post) = Ok crc
    /\ checkCRC (pre ++ b :: post) crc = Ok false.
Proof.
  intros Hab.
  destruct (computeCRC_naive (pre ++ a :: post)) as [Ha _].
  destruct (computeCRC_naive (pre ++ b :: post)) as [Hb _].
  exists (crc16_naive (pre ++ a :: post)). split; [exact Ha|].
  unfold checkCRC. rewrite Hb. cbn [bind]. f_equal.
  apply Z.eqb_neq. intros Heq. apply Hab.
  unfold crc16_naive in Heq. rewrite !fold_left_app in Heq.
  cbn [fold_left] in Heq.
  assert (Hp : 0 <= fold_left crc16_naive_byte pre 0xFFFF < 2 ^ 16)
    by (apply crc16_naive_fold_range; change (2 ^ 16) with 65536; lia).
  apply crc16_naive_fold_inj in Heq;
    [|apply (crc16_naive_fold_range [_]); exact Hp ..].
  symmetry. apply (crc16_naive_byte_inj_byte _ _ _ Hp Heq).
Qed.

Lemma checkCRC_single_byte_witness :
  x03 <> x04
  /\ exists crc : Z,
       computeCRC ([x01] ++ x03 :: [x00; x0a]) = Ok crc
       /\ checkCRC ([x01] ++ x04 :: [x00; x0a]) crc = Ok false.
Proof.
  split; [discriminate|].
  apply (checkCRC_single_byte [x01] [x00; x0a] x03 x04). discriminate.
Defined.

(** X11: the CRC table is linear over XOR and has no repeated entry: for
    indices [j] and [k] of [range(256)], the entry at [j ^ k] is the XOR
    of the entries at [j] and [k], and different indices hold different
    entries. *)
Theorem crc16_table_linear (j k : Z) :
  0 <= j < 256 -> 0 <= k < 256 ->
  exists tj tk tjk : Z,
    getitem __crc16_table j = Ok tj
    /\ getitem __crc16_table k = Ok tk
    /\ getitem __crc16_table (Z.lxor j k) = Ok tjk
    /\ tjk = Z.lxor tj tk
    /\ (j <> k -> tj <> tk).
Proof.
  intros Hj Hk.
  assert (Hjk : 0 <= Z.lxor j k < 256).
  { change 256 with (2 ^ 8) in *. apply lxor_lt_pow2; assumption. }
  destruct (crc16_table_lookup j Hj) as [Gj _].
  destruct (crc16_table_lookup k Hk) as [Gk _].
  destruct (crc16_table_lookup _ Hjk) as [Gjk _].
  exists (Nat.iter 8 crc16_shift j), (Nat.iter 8 crc16_shift k),
    (Nat.iter 8 crc16_shift (Z.lxor j k)).
  split; [exact Gj|]. split; [exact Gk|]. split; [exact Gjk|].
  split; [apply iter_crc16_shift_lxor|].
  intros Hne Heq. apply Hne.
  apply (iter_crc16_shift_inj 8); [| |exact Heq];
    change (2 ^ 16) with 65536; lia.
Qed.

Lemma crc16_table_linear_witness :
  0 <= 3 < 256 /\ 0 <= 5 < 256
  /\ exists tj tk tjk : Z,
       getitem __crc16_table 3 = Ok tj
       /\ getitem __crc16_table 5 = Ok tk
       /\ getitem __crc16_table (Z.lxor 3 5) = Ok tjk
       /\ tjk = Z.lxor tj tk
       /\ (3 <> 5 -> tj <> tk).
Proof.
  split; [lia|]. split; [lia|].
  apply (crc16_table_linear 3 5); lia.
Defined.
